(** * network-interceptor-fix.py: the sensor-key patch script

    A shallow embedding of the one-shot maintenance script
    [network-interceptor-fix.py] and the properties of its guarded
    search-and-replace.

    Modelling conventions.
    - A Python [str] is a list of Unicode code points ([pystr]).
    - The file system maps a path to a file: its access rights and the text
      that [f.read()] returns for it in text mode.  Decoding, encoding and
      newline translation are below this model, and so is the console:
      [print] always succeeds.
    - [open] raises when the file is missing (mode ['r']) or when the access
      rights forbid the mode asked for; the script catches nothing, so an
      exception ends the run.
    - The script runs in a state-and-exception monad over the [world]: the
      file system, the lines printed on standard output so far, and the log
      of the paths that were opened for writing. *)

From Stdlib Require Import String Ascii NArith List Lia.
From stdpp Require Import base option list gmap strings.

Local Open Scope list_scope.

(** ** Python strings *)

Definition char : Type := N.
Definition pystr : Type := list char.

(** An ASCII literal as a [pystr]. *)
Definition py (s : string) : pystr := map N_of_ascii (list_ascii_of_string s).

(** [chr n], the one-character string of code point [n]. *)
Definition chr (n : N) : pystr := [n].

Definition dquote : pystr := chr 34.
Definition newline : pystr := chr 10.

(** [s.startswith(p)] *)
Fixpoint startswith (s p : pystr) {struct p} : bool :=
  match p with
  | [] => true
  | b :: p' =>
      match s with
      | [] => false
      | c :: s' => (c =? b)%N && startswith s' p'
      end
  end.

(** [p in s]: [p] matches at some position of [s]. *)
Fixpoint contains (s p : pystr) : bool :=
  startswith s p ||
  match s with
  | [] => false
  | _ :: s' => contains s' p
  end.

(** [s.find(p)], with [None] for Python's [-1]. *)
Fixpoint find (s p : pystr) : option nat :=
  if startswith s p then Some 0
  else match s with
       | [] => None
       | _ :: s' => S <$> find s' p
       end.

(** The number of positions of [s] at which [p] matches. *)
Fixpoint occurrences (s p : pystr) : nat :=
  (if startswith s p then 1 else 0) +
  match s with
  | [] => 0
  | _ :: s' => occurrences s' p
  end.

(** The scan of [s.replace(old, new)] for a non-empty [old]: left to right,
    a match emits [new] and skips the matched characters, so the matches
    replaced are the leftmost ones that do not overlap. *)
Fixpoint replace_from (skip : nat) (s old new : pystr) : pystr :=
  match s with
  | [] => []
  | c :: s' =>
      match skip with
      | S k => replace_from k s' old new
      | O =>
          if startswith s old
          then new ++ replace_from (length old - 1) s' old new
          else c :: replace_from 0 s' old new
      end
  end.

(** [s.replace(old, new)].  With an empty [old], Python puts [new] before
    every character and at the end. *)
Definition replace (s old new : pystr) : pystr :=
  match old with
  | [] => new ++ flat_map (λ c, c :: new) s
  | _ :: _ => replace_from 0 s old new
  end.

(** [sep.join(parts)] *)
Fixpoint join (sep : pystr) (parts : list pystr) : pystr :=
  match parts with
  | [] => []
  | [g] => g
  | g :: rest => g ++ sep ++ join sep rest
  end.

(** The text of a triple-quoted literal, given line by line. *)
Definition lines (ls : list pystr) : pystr := join newline ls.

(** ** The two literals of the script *)

Definition old_sensor_logic : pystr :=
  lines [
    py "  // Look for sensor keys (slabwgt, slabvwc, etc.)";
    py "  if (nodeData.length === 0) {";
    py "    console.log('" ++ chr 0x26A0 ++ chr 0xFE0F ++ py "  [NETWORK] Node data array is empty');";
    py "    return null;";
    py "  }";
    py "  ";
    py "  const firstEntry = nodeData[0];";
    py "  const sensorKeys = Object.keys(firstEntry).filter(k => ";
    py "    k.toLowerCase().includes('slab') || ";
    py "    k.toLowerCase().includes('wgt') || ";
    py "    k.toLowerCase().includes('vwc')";
    py "  );"
  ].

Definition new_sensor_logic : pystr :=
  lines [
    py "  // Look for sensor keys (slabwgt, slabvwc, etc.)";
    py "  if (nodeData.length === 0) {";
    py "    console.log('" ++ chr 0x26A0 ++ chr 0xFE0F ++ py "  [NETWORK] Node data array is empty');";
    py "    return null;";
    py "  }";
    py "  ";
    py "  // Find first non-empty entry (skip empty objects at the start)";
    py "  let firstEntry = null;";
    py "  for (let i = 0; i < Math.min(10, nodeData.length); i++) {";
    py "    if (nodeData[i] && Object.keys(nodeData[i]).length > 1) { // More than just " ++ dquote ++ py "timestamp" ++ dquote;
    py "      firstEntry = nodeData[i];";
    py "      if (i > 0) {";
    py "        console.log(`   " ++ chr 0x2192 ++ py " Skipped ${i} empty entries, using entry [${i}]`);";
    py "      }";
    py "      break;";
    py "    }";
    py "  }";
    py "  ";
    py "  if (!firstEntry) {";
    py "    console.log('" ++ chr 0x26A0 ++ chr 0xFE0F ++ py "  [NETWORK] All entries are empty');";
    py "    return null;";
    py "  }";
    py "  ";
    py "  // Look for sensor keys with flexible pattern matching (handles suffixes like " ++ dquote ++ py "_1" ++ dquote ++ py ", " ++ dquote ++ py "_2" ++ dquote ++ py ")";
    py "  const sensorKeys = Object.keys(firstEntry).filter(k => {";
    py "    const lower = k.toLowerCase();";
    py "    return (lower.includes('slabwgt') || ";
    py "            lower.includes('slabvwc') || ";
    py "            lower.includes('calslabvwc')) && ";
    py "           k !== 'timestamp';";
    py "  });"
  ].

(** The lines printed by the two branches. *)
Definition success_lines : list pystr :=
  [ chr 0x2705 ++ py " FIXED: Sensor key parser now handles:";
    py "   1. Empty objects at the start of array";
    py "   2. Dynamic suffixes (slabwgt_1, slabwgt_2, etc.)";
    py "   3. Both slabwgt and calslabvwc keys" ].

Definition failure_lines : list pystr :=
  [ chr 0x274C ++ py " Could not find target section";
    py "   Will need manual inspection" ].

(** ** Files, the world and the monad of the script *)

Record file := File { readable : bool; writable : bool; text : pystr }.

Record world := World {
  fs : gmap string file;
  stdout : list pystr;
  written : list string
}.

Inductive exn := FileNotFoundError | PermissionError.

(** A computation either returns a value or raises; both leave a world. *)
Definition io (A : Type) : Type := world → world * (exn + A).

#[export] Instance io_ret : MRet io := λ A x w, (w, inr x).
#[export] Instance io_bind : MBind io := λ A B k m w,
  match m w with
  | (w', inr x) => k x w'
  | (w', inl e) => (w', inl e)
  end.

(** [raise e]: the world stays as it is and the rest of the run is skipped. *)
Definition raise {A} (e : exn) : io A := λ w, (w, inl e).

(** [with open(path, 'r') as f: f.read()] *)
Definition read_file (path : string) : io pystr := λ w,
  match fs w !! path with
  | None => raise FileNotFoundError w
  | Some f => if readable f then (w, inr (text f)) else raise PermissionError w
  end.

(** [with open(path, 'w') as f: f.write(content)]: mode ['w'] truncates the
    file, or creates it, and the one [write] stores the whole content. *)
Definition write_file (path : string) (content : pystr) : io () := λ w,
  match fs w !! path with
  | None =>
      (World (<[path := File true true content]> (fs w)) (stdout w)
             (written w ++ [path]), inr ())
  | Some f =>
      if writable f
      then (World (<[path := File (readable f) (writable f) content]> (fs w))
                  (stdout w) (written w ++ [path]), inr ())
      else raise PermissionError w
  end.

(** [print(line)] *)
Definition print (line : pystr) : io () := λ w,
  (World (fs w) (stdout w ++ [line]) (written w), inr ()).

(** ** The script *)

Definition target : string := "network-interceptor.js".

Definition main : io () :=
  content ← read_file target;
  if contains content old_sensor_logic then
    let content := replace content old_sensor_logic new_sensor_logic in
    write_file target content;;
    print (chr 0x2705 ++ py " FIXED: Sensor key parser now handles:");;
    print (py "   1. Empty objects at the start of array");;
    print (py "   2. Dynamic suffixes (slabwgt_1, slabwgt_2, etc.)");;
    print (py "   3. Both slabwgt and calslabvwc keys")
  else
    print (chr 0x274C ++ py " Could not find target section");;
    print (py "   Will need manual inspection").

(** ** Notions used to state the properties *)

(** [s.replace(old, new, 1)]: only the first occurrence is replaced. *)
Definition replace_first (s old new : pystr) : pystr :=
  match find s old with
  | None => s
  | Some i => take i s ++ new ++ drop (i + length old) s
  end.

(** One of the two strings is a prefix of the other. *)
Definition clash (x y : pystr) : bool := startswith x y || startswith y x.

(** No non-empty tail of [x] clashes with [y]. *)
Fixpoint no_tail_clash (x y : pystr) : bool :=
  match x with
  | [] => true
  | _ :: x' => negb (clash x y) && no_tail_clash x' y
  end.


(** The world after the branch that found the pattern: the target holds
    [content], the four lines are printed, one write is logged. *)
Definition success_world (w : world) (content : pystr) : world :=
  World (<[target := File true true content]> (fs w))
        (stdout w ++ success_lines) (written w ++ [target]).

(** The world after the branch that did not find it: two lines printed. *)
Definition failure_world (w : world) : world :=
  World (fs w) (stdout w ++ failure_lines) (written w).

(** The access rights of a file. *)
Definition rights (f : file) : bool * bool := (readable f, writable f).

(** ** Sample inputs *)

(** A world that holds only the target file, nothing printed or written. *)
Definition only_target (f : file) : world := World {[ target := f ]} [] [].

Definition sample_head : pystr := py "function parse(nodeData) {" ++ newline.
Definition sample_tail : pystr := newline ++ py "  return sensorKeys;" ++ newline ++ py "}".

(** The old block once, inside a function. *)
Definition sample_text : pystr := sample_head ++ old_sensor_logic ++ sample_tail.

(** The old block twice, on consecutive lines. *)
Definition twice_text : pystr := old_sensor_logic ++ newline ++ old_sensor_logic.


(** A world with another file, earlier output and an earlier write. *)
Definition busy_world (f : file) : world :=
  World (<["README.md" := File true true (py "notes")]> {[ target := f ]})
        [py "earlier output"] ["README.md"].

(** ** The string operations on small inputs *)

Example startswith_prefix : startswith (py "slabwgt_1") (py "slab") = true.
Proof. reflexivity. Qed.

Example contains_empty_pattern : contains (py "abc") [] = true.
Proof. reflexivity. Qed.

Example find_leftmost : find (py "abcabc") (py "ca") = Some 2.
Proof. reflexivity. Qed.

Example find_nothing : find (py "abcabc") (py "cb") = None.
Proof. reflexivity. Qed.

Example occurrences_overlap : occurrences (py "aaa") (py "aa") = 2.
Proof. reflexivity. Qed.

Example replace_all : replace (py "a-b-c") (py "-") (py "+") = py "a+b+c".
Proof. reflexivity. Qed.

Example replace_no_overlap : replace (py "aaa") (py "aa") (py "b") = py "ba".
Proof. reflexivity. Qed.

Example replace_empty_old : replace (py "ab") [] (py "-") = py "-a-b-".
Proof. reflexivity. Qed.

Example replace_first_only : replace_first (py "a-b-c") (py "-") (py "+") = py "a+b-c".
Proof. reflexivity. Qed.

Example join_three : join (py ", ") [py "a"; py "b"; py "c"] = py "a, b, c".
Proof. reflexivity. Qed.

Example old_length : length old_sensor_logic = 378.
Proof. reflexivity. Qed.

Example new_length : length new_sensor_logic = 1021.
Proof. reflexivity. Qed.

(** ** Prefixes *)

Lemma startswith_nil s : startswith s [] = true.
Proof. done. Qed.

Lemma startswith_app p t : startswith (p ++ t) p = true.
Proof. induction p as [|b p IH]; simpl; [done|]. by rewrite N.eqb_refl. Qed.

Lemma startswith_inv s p : startswith s p = true → ∃ t, s = p ++ t.
Proof.
  revert s. induction p as [|b p IH]; intros s H.
  - by exists s.
  - destruct s as [|c s]; simpl in H; [done|].
    apply andb_true_iff in H as [Hc Hs]. apply N.eqb_eq in Hc as ->.
    destruct (IH _ Hs) as [t ->]. by exists t.
Qed.

Lemma startswith_app_l x y p : startswith x p = true → startswith (x ++ y) p = true.
Proof.
  intros [t ->]%startswith_inv. rewrite <- app_assoc. apply startswith_app.
Qed.

Lemma startswith_length s p : startswith s p = true → length p ≤ length s.
Proof. intros [t ->]%startswith_inv. rewrite length_app. lia. Qed.

(** A prefix of [x ++ z] is a prefix of [x], or [x] is a prefix of it. *)
Lemma startswith_app_clash x z p : startswith (x ++ z) p = true → clash x p = true.
Proof.
  unfold clash. revert p. induction x as [|c x IH]; intros p H.
  - by rewrite (startswith_nil p), orb_true_r.
  - destruct p as [|b p]; [done|]. simpl in *.
    apply andb_true_iff in H as [Hc Hs]. apply N.eqb_eq in Hc as ->.
    rewrite N.eqb_refl. simpl. by apply IH.
Qed.

Lemma startswith_app_split x y p :
  startswith (x ++ y) p = true →
  startswith x p = true ∨ ∃ b, p = x ++ b ∧ b ≠ [] ∧ startswith y b = true.
Proof.
  revert p. induction x as [|c x IH]; intros p H.
  - destruct p as [|b p]; [by left|]. right. by exists (b :: p).
  - destruct p as [|b p]; [by left|]. simpl in *.
    apply andb_true_iff in H as [Hc Hs]. rewrite Hc. simpl.
    apply N.eqb_eq in Hc as ->.
    destruct (IH _ Hs) as [?|(b' & -> & ? & ?)]; [by left|].
    right. by exists b'.
Qed.

Lemma no_tail_clash_spec x y u v :
  no_tail_clash x y = true → x = u ++ v → v ≠ [] → clash v y = false.
Proof.
  revert u. induction x as [|c x IH]; intros u H E Hv.
  - symmetry in E. apply app_eq_nil in E as [_ ?]. done.
  - simpl in H. apply andb_true_iff in H as [Hc Hx].
    destruct u as [|c' u]; simpl in E.
    + subst v. by apply negb_true_iff.
    + injection E as _ E. by apply (IH u).
Qed.

(** ** Substring search *)

Lemma contains_startswith s p : startswith s p = true → contains s p = true.
Proof. intros H. destruct s; simpl; by rewrite H. Qed.

Lemma contains_intro pre p post : contains (pre ++ p ++ post) p = true.
Proof.
  induction pre as [|c pre IH]; simpl.
  - apply contains_startswith, startswith_app.
  - by rewrite IH, orb_true_r.
Qed.

Lemma contains_inv s p : contains s p = true → ∃ pre post, s = pre ++ p ++ post.
Proof.
  induction s as [|c s IH]; simpl; intros H.
  - rewrite orb_false_r in H. apply startswith_inv in H as [t ->]. by exists [], t.
  - apply orb_true_iff in H as [H|H].
    + apply startswith_inv in H as [t ->]. by exists [], t.
    + destruct (IH H) as (pre & post & ->). by exists (c :: pre), post.
Qed.

Lemma contains_app_r x y p : contains y p = true → contains (x ++ y) p = true.
Proof.
  intros (pre & post & ->)%contains_inv.
  rewrite app_assoc. apply contains_intro.
Qed.

Lemma contains_app_l x y p : contains x p = true → contains (x ++ y) p = true.
Proof.
  intros (pre & post & ->)%contains_inv.
  rewrite <- !app_assoc. apply contains_intro.
Qed.

Lemma contains_nil p : p ≠ [] → contains [] p = false.
Proof. by destruct p. Qed.

(** Where an occurrence of [p] in [x ++ y] can lie: inside [x], inside [y],
    or across the seam. *)
Lemma contains_app_cases x y p :
  contains (x ++ y) p = true →
  contains x p = true ∨ contains y p = true ∨
  ∃ u a b, x = u ++ a ∧ a ≠ [] ∧ b ≠ [] ∧ p = a ++ b ∧ startswith y b = true.
Proof.
  induction x as [|c x IH]; intros H; [by right; left|].
  change (startswith (c :: x ++ y) p || contains (x ++ y) p = true) in H.
  apply orb_true_iff in H as [H|H].
  - apply (startswith_app_split (c :: x)) in H as [H|(b & -> & Hb & Hy)].
    + left. simpl. by rewrite H.
    + right; right. by exists [], (c :: x), b.
  - destruct (IH H) as [Hx|[Hy|(u & a & b & -> & Ha & Hb & -> & Hy)]].
    + left. simpl. by rewrite Hx, orb_true_r.
    + by right; left.
    + right; right. by exists (c :: u), a, b.
Qed.

Lemma find_none s p : find s p = None ↔ contains s p = false.
Proof.
  induction s as [|c s IH]; simpl.
  - by destruct (startswith [] p).
  - destruct (startswith (c :: s) p); simpl; [done|].
    rewrite <- IH. by destruct (find s p).
Qed.

Lemma contains_find s p : contains s p = true → ∃ i, find s p = Some i.
Proof.
  intros H. destruct (find s p) as [i|] eqn:E; [by exists i|].
  apply find_none in E. congruence.
Qed.

Lemma find_cons_S c s p n :
  find (c :: s) p = Some (S n) → startswith (c :: s) p = false ∧ find s p = Some n.
Proof.
  simpl. destruct (startswith (c :: s) p); [done|].
  destruct (find s p); simpl; naive_solver.
Qed.

Lemma find_app_cons_S c pre rest p :
  find ((c :: pre) ++ rest) p = Some (length (c :: pre)) →
  startswith (c :: pre ++ rest) p = false ∧ find (pre ++ rest) p = Some (length pre).
Proof. apply find_cons_S. Qed.

Lemma find_split s p i :
  find s p = Some i → ∃ pre post, s = pre ++ p ++ post ∧ length pre = i.
Proof.
  revert i. induction s as [|c s IH]; intros i H.
  - simpl in H. destruct (startswith [] p) eqn:E; [|done].
    injection H as <-. apply startswith_inv in E as [t ->]. by exists [], t.
  - destruct i as [|i].
    + simpl in H. destruct (startswith (c :: s) p) eqn:E.
      * apply startswith_inv in E as [t ->]. by exists [], t.
      * destruct (find s p); done.
    + apply find_cons_S in H as [_ H].
      destruct (IH _ H) as (pre & post & -> & <-). by exists (c :: pre), post.
Qed.


(** Before the first occurrence there is none. *)
Lemma find_first_clean pre p post :
  p ≠ [] → find (pre ++ p ++ post) p = Some (length pre) → contains pre p = false.
Proof.
  intros Hp. induction pre as [|c pre IH]; intros H; [by apply contains_nil|].
  apply find_app_cons_S in H as [Hs H]. simpl.
  rewrite (IH H), orb_false_r.
  destruct (startswith (c :: pre) p) eqn:E; [|done].
  apply (startswith_app_l _ (p ++ post)) in E. simpl in E. congruence.
Qed.

(** ** The scan of [replace] *)

Lemma replace_from_skip x y old new :
  replace_from (length x) (x ++ y) old new = replace_from 0 y old new.
Proof. induction x as [|c x IH]; simpl; [by destruct y|done]. Qed.

Lemma replace_from_absent s old new :
  contains s old = false → replace_from 0 s old new = s.
Proof.
  induction s as [|c s IH]; [done|]. simpl. intros H.
  apply orb_false_iff in H as [-> H]. by rewrite IH.
Qed.

Lemma replace_absent s old new : contains s old = false → replace s old new = s.
Proof.
  destruct old as [|b old]; [by destruct s|]. apply replace_from_absent.
Qed.

(** The unfolding of the scan at the first occurrence. *)
Lemma replace_first_occurrence pre post old new :
  old ≠ [] →
  find (pre ++ old ++ post) old = Some (length pre) →
  replace (pre ++ old ++ post) old new = pre ++ new ++ replace post old new.
Proof.
  intros Hold. destruct old as [|b old]; [done|]. unfold replace.
  induction pre as [|c pre IH]; intros H.
  - change (replace_from 0 ((b :: old) ++ post) (b :: old) new =
            new ++ replace_from 0 post (b :: old) new).
    pose proof (startswith_app (b :: old) post) as Hs.
    simpl in *. rewrite Hs. f_equal.
    rewrite Nat.sub_0_r. apply replace_from_skip.
  - apply find_app_cons_S in H as [Hs H].
    change (replace_from 0 (c :: pre ++ (b :: old) ++ post) (b :: old) new =
            c :: pre ++ new ++ replace_from 0 post (b :: old) new).
    simpl in *. rewrite Hs. f_equal. by apply IH.
Qed.

(** Induction along the scan: texts without an occurrence, and texts split
    at their first occurrence. *)
Lemma scan_ind (p : pystr) (Q : pystr → Prop) :
  p ≠ [] →
  (∀ s, contains s p = false → Q s) →
  (∀ pre post, find (pre ++ p ++ post) p = Some (length pre) →
               Q post → Q (pre ++ p ++ post)) →
  ∀ s, Q s.
Proof.
  intros Hp Hbase Hstep s.
  induction s as [s IH] using (induction_ltof1 _ (@length char)). unfold ltof in IH.
  destruct (contains s p) eqn:Hc; [|by apply Hbase].
  apply contains_find in Hc as [i Hi].
  destruct (find_split _ _ _ Hi) as (pre & post & -> & <-).
  apply Hstep; [done|]. apply IH.
  rewrite !length_app. destruct p; [done|]. simpl. lia.
Qed.

(** ** Occurrences after a replacement *)

Lemma clash_comm x y : clash x y = clash y x.
Proof. apply orb_comm. Qed.

(** When no tail of [new] can start an occurrence of [old] and no proper tail
    of [old] can run into [new], the replaced text holds no [old] at all. *)
Lemma replace_removes old new :
  old ≠ [] →
  no_tail_clash (tail old) new = true →
  no_tail_clash new old = true →
  ∀ s, contains (replace s old new) old = false.
Proof.
  intros Hold X1 X2. apply (scan_ind old); [done|..].
  - intros s H. by rewrite replace_absent.
  - intros pre post Hf IH. rewrite replace_first_occurrence by done.
    destruct (contains (pre ++ new ++ replace post old new) old) eqn:E; [|done].
    exfalso.
    apply contains_app_cases in E as [E|[E|(u & a & b & Hpre & Ha & Hb & Hab & Hs)]].
    + by rewrite (find_first_clean _ _ _ Hold Hf) in E.
    + apply contains_app_cases in E
        as [E|[E|(u & a & b & Hnew & Ha & Hb & Hab & Hs)]].
      * apply contains_inv in E as (u & v & Hnew).
        assert (clash (old ++ v) old = false) as Hc.
        { apply (no_tail_clash_spec new old u); [done..|]. by destruct old. }
        unfold clash in Hc. by rewrite startswith_app in Hc.
      * congruence.
      * assert (clash a old = false) as Hc
          by by apply (no_tail_clash_spec new old u).
        unfold clash in Hc. rewrite Hab in Hc at 2.
        by rewrite startswith_app, orb_true_r in Hc.
    + apply startswith_app_clash in Hs. rewrite clash_comm in Hs.
      destruct a as [|c a]; [done|].
      assert (clash b new = false) as Hc; [|congruence].
      apply (no_tail_clash_spec (tail old) new a); [done| |done].
      by rewrite Hab.
Qed.

(** ** Counting occurrences *)

Lemma occurrences_absent s p : occurrences s p = 0 ↔ contains s p = false.
Proof.
  induction s as [|c s IH]; simpl.
  - by destruct (startswith [] p).
  - by destruct (startswith (c :: s) p).
Qed.

Lemma occurrences_skip x y p :
  (∀ u v, x = u ++ v → v ≠ [] → startswith (v ++ y) p = false) →
  occurrences (x ++ y) p = occurrences y p.
Proof.
  induction x as [|c x IH]; intros H; [done|].
  change (occurrences ((c :: x) ++ y) p) with
    ((if startswith ((c :: x) ++ y) p then 1 else 0) + occurrences (x ++ y) p).
  rewrite (H [] (c :: x)) by done. simpl.
  apply IH. intros u v -> Hv. by apply (H (c :: u)).
Qed.

(** For a [p] that cannot overlap itself, the occurrence found first is
    followed by exactly the occurrences of the rest. *)
Lemma occurrences_first pre post p :
  p ≠ [] →
  no_tail_clash (tail p) p = true →
  find (pre ++ p ++ post) p = Some (length pre) →
  occurrences (pre ++ p ++ post) p = S (occurrences post p).
Proof.
  intros Hp Hu. induction pre as [|c pre IH]; intros H.
  - destruct p as [|b p]; [done|].
    change (occurrences ([] ++ (b :: p) ++ post) (b :: p)) with
      ((if startswith ((b :: p) ++ post) (b :: p) then 1 else 0)
       + occurrences (p ++ post) (b :: p)).
    rewrite startswith_app. simpl. f_equal.
    apply occurrences_skip. intros u v Hv Hne.
    destruct (startswith (v ++ post) (b :: p)) eqn:E; [|done].
    apply startswith_app_clash in E.
    by rewrite (no_tail_clash_spec _ _ u v Hu) in E.
  - apply find_app_cons_S in H as [Hs H].
    change (occurrences ((c :: pre) ++ p ++ post) p) with
      ((if startswith (c :: pre ++ p ++ post) p then 1 else 0)
       + occurrences (pre ++ p ++ post) p).
    rewrite Hs. by apply IH.
Qed.

(** A text with exactly one occurrence: it is the first, and nothing
    follows it. *)
Lemma occurrences_one_split pre post p :
  p ≠ [] →
  occurrences (pre ++ p ++ post) p = 1 →
  find (pre ++ p ++ post) p = Some (length pre) ∧ contains post p = false.
Proof.
  intros Hp. induction pre as [|c pre IH]; intros H.
  - destruct p as [|b p]; [done|].
    change (occurrences ([] ++ (b :: p) ++ post) (b :: p)) with
      ((if startswith ((b :: p) ++ post) (b :: p) then 1 else 0)
       + occurrences (p ++ post) (b :: p)) in H.
    change (find ([] ++ (b :: p) ++ post) (b :: p)) with
      (if startswith ((b :: p) ++ post) (b :: p) then Some 0
       else S <$> find (p ++ post) (b :: p)).
    rewrite startswith_app in *. split; [done|].
    injection H as H. apply occurrences_absent in H.
    destruct (contains post (b :: p)) eqn:E; [|done].
    apply (contains_app_r p) in E. congruence.
  - change (occurrences ((c :: pre) ++ p ++ post) p) with
      ((if startswith (c :: pre ++ p ++ post) p then 1 else 0)
       + occurrences (pre ++ p ++ post) p) in H.
    change (find ((c :: pre) ++ p ++ post) p) with
      (if startswith (c :: pre ++ p ++ post) p then Some 0
       else S <$> find (pre ++ p ++ post) p).
    assert (occurrences (pre ++ p ++ post) p ≠ 0) as Hne.
    { rewrite occurrences_absent, contains_intro. done. }
    destruct (startswith (c :: pre ++ p ++ post) p); [lia|].
    destruct (IH H) as [-> ?]. done.
Qed.

(** ** Replacement as a change of separator *)

Lemma join_cons sep g g' rest :
  join sep (g :: g' :: rest) = g ++ sep ++ join sep (g' :: rest).
Proof. done. Qed.

(** [s.replace(old, new) == new.join(s.split(old))]: the text is its gaps
    around the occurrences of [old], and only the separators change. *)
Lemma replace_join old new :
  old ≠ [] →
  no_tail_clash (tail old) old = true →
  ∀ s, ∃ gaps,
    length gaps = S (occurrences s old) ∧
    s = join old gaps ∧
    replace s old new = join new gaps.
Proof.
  intros Hold Hu. apply (scan_ind old); [done|..].
  - intros s H. exists [s]. rewrite replace_absent by done.
    apply occurrences_absent in H. by rewrite H.
  - intros pre post Hf (gaps & Hlen & Hs & Hr).
    destruct gaps as [|g gaps]; [done|]. exists (pre :: g :: gaps).
    rewrite occurrences_first, replace_first_occurrence, !join_cons by done.
    rewrite <- Hs, Hr. split_and!; [|done..].
    change (S (length (g :: gaps)) = S (S (occurrences post old))).
    by rewrite Hlen.
Qed.

(** ** The runs of the script *)

Lemma main_cases w :
  main w =
    match fs w !! target with
    | None => (w, inl FileNotFoundError)
    | Some f =>
        if readable f then
          if contains (text f) old_sensor_logic then
            if writable f
            then (success_world w (replace (text f) old_sensor_logic new_sensor_logic),
                  inr ())
            else (w, inl PermissionError)
          else (failure_world w, inr ())
        else (w, inl PermissionError)
    end.
Proof.
  unfold main, mbind, io_bind, read_file.
  destruct (fs w !! target) as [f|] eqn:H; [|done].
  destruct (readable f) eqn:Hr; [|done].
  destruct (contains (text f) old_sensor_logic) eqn:Hc.
  - unfold write_file. rewrite H. destruct (writable f) eqn:Hw; [|done].
    unfold print, success_world, success_lines.
    cbn [fs stdout written]. by rewrite Hr, <- !app_assoc.
  - unfold print, failure_world, failure_lines.
    cbn [fs stdout written]. by rewrite <- app_assoc.
Qed.

Lemma main_found w f :
  fs w !! target = Some f → readable f = true → writable f = true →
  contains (text f) old_sensor_logic = true →
  main w = (success_world w (replace (text f) old_sensor_logic new_sensor_logic), inr ()).
Proof. intros H Hr Hw Hc. by rewrite main_cases, H, Hr, Hc, Hw. Qed.

Lemma main_absent w f :
  fs w !! target = Some f → readable f = true →
  contains (text f) old_sensor_logic = false →
  main w = (failure_world w, inr ()).
Proof. intros H Hr Hc. by rewrite main_cases, H, Hr, Hc. Qed.

(** ** Facts about the two literals *)

Lemma old_nonempty : old_sensor_logic ≠ [].
Proof. done. Qed.

(** The old block cannot overlap itself. *)
Lemma old_unbordered : no_tail_clash (tail old_sensor_logic) old_sensor_logic = true.
Proof. vm_compute. reflexivity. Qed.

(** No proper tail of the old block runs into the new block. *)
Lemma old_tails_miss_new : no_tail_clash (tail old_sensor_logic) new_sensor_logic = true.
Proof. vm_compute. reflexivity. Qed.

(** No tail of the new block starts the old block. *)
Lemma new_tails_miss_old : no_tail_clash new_sensor_logic old_sensor_logic = true.
Proof. vm_compute. reflexivity. Qed.

Lemma patched_text_clean s :
  contains (replace s old_sensor_logic new_sensor_logic) old_sensor_logic = false.
Proof.
  apply replace_removes;
    auto using old_nonempty, old_tails_miss_new, new_tails_miss_old.
Qed.

Lemma lines_differ : success_lines ≠ failure_lines.
Proof. intros H. apply (f_equal length) in H. done. Qed.

(** ** The properties of the patch *)

(** C1: when the target file is an ordinary (readable and writable) file whose
    text holds the old block exactly once, the run overwrites it with the same
    text in which that occurrence is the new block, prints the four success
    lines and ends normally. *)
Theorem single_occurrence_replaced (w : world) (f : file) (pre post : pystr) :
  fs w !! target = Some f → readable f = true → writable f = true →
  text f = pre ++ old_sensor_logic ++ post →
  occurrences (text f) old_sensor_logic = 1 →
  main w = (success_world w (pre ++ new_sensor_logic ++ post), inr ()).
Proof.
  intros H Hr Hw Ht Hone. rewrite Ht in Hone.
  apply occurrences_one_split in Hone as [Hfind Hpost]; [|apply old_nonempty].
  rewrite (main_found w f H Hr Hw) by (rewrite Ht; apply contains_intro).
  rewrite Ht, replace_first_occurrence by (done || apply old_nonempty).
  by rewrite (replace_absent post).
Qed.

Lemma single_occurrence_replaced_witness :
  occurrences sample_text old_sensor_logic = 1 ∧
  main (only_target (File true true sample_text)) =
    (success_world (only_target (File true true sample_text))
       (sample_head ++ new_sensor_logic ++ sample_tail), inr ()).
Proof.
  split; [by vm_compute|].
  apply (single_occurrence_replaced _ (File true true sample_text)
           sample_head sample_tail); by vm_compute.
Defined.

(** C2: when the text of the readable target file does not hold the old
    block, the run writes nothing (the file system and the write log are as
    before), prints the two lines of the could-not-find warning and ends
    normally. *)
Theorem absent_pattern_no_write (w : world) (f : file) :
  fs w !! target = Some f → readable f = true →
  contains (text f) old_sensor_logic = false →
  ∃ w', main w = (w', inr ()) ∧
        fs w' = fs w ∧ written w' = written w ∧
        stdout w' = stdout w ++ failure_lines ∧
        failure_lines !! 0 = Some (chr 0x274C ++ py " Could not find target section").
Proof.
  intros H Hr Hc. exists (failure_world w).
  by rewrite (main_absent w f).
Qed.

Lemma absent_pattern_no_write_witness :
  contains new_sensor_logic old_sensor_logic = false ∧
  ∃ w', main (only_target (File true true new_sensor_logic)) = (w', inr ()) ∧
        fs w' = {[ target := File true true new_sensor_logic ]} ∧
        written w' = [] ∧
        stdout w' = [] ++ failure_lines ∧
        failure_lines !! 0 = Some (chr 0x274C ++ py " Could not find target section").
Proof.
  split; [by vm_compute|].
  apply (absent_pattern_no_write (only_target (File true true new_sensor_logic))
           (File true true new_sensor_logic)); by vm_compute.
Defined.




Lemma main_success_inv w w1 :
  main w = (w1, inr ()) → stdout w1 = stdout w ++ success_lines →
  ∃ f, fs w !! target = Some f ∧ readable f = true ∧ writable f = true ∧
       contains (text f) old_sensor_logic = true ∧
       w1 = success_world w (replace (text f) old_sensor_logic new_sensor_logic).
Proof.
  rewrite main_cases. intros Hm Hs.
  destruct (fs w !! target) as [f|]; [|done].
  destruct (readable f) eqn:Hr; [|done].
  destruct (contains (text f) old_sensor_logic) eqn:Hc.
  - destruct (writable f) eqn:Hw; [|done]. injection Hm as <-. by exists f.
  - injection Hm as <-. apply app_inv_head in Hs.
    by destruct lines_differ.
Qed.

(** C4: after a run that succeeded (it ended normally and printed the success
    lines), a second run on the world it left ends normally with the
    could-not-find warning and leaves the file system and the write log as
    the first run left them. *)
Theorem second_run_reports_failure (w w1 : world) :
  main w = (w1, inr ()) → stdout w1 = stdout w ++ success_lines →
  ∃ w2, main w1 = (w2, inr ()) ∧
        fs w2 = fs w1 ∧ written w2 = written w1 ∧
        stdout w2 = stdout w1 ++ failure_lines.
Proof.
  intros Hm Hs.
  destruct (main_success_inv _ _ Hm Hs) as (f & _ & _ & _ & _ & ->).
  exists (failure_world (success_world w (replace (text f) old_sensor_logic new_sensor_logic))).
  split; [|done]. eapply main_absent.
  - apply lookup_insert_eq.
  - done.
  - apply patched_text_clean.
Qed.

Lemma second_run_reports_failure_witness :
  let w := only_target (File true true sample_text) in
  let w1 := success_world w (sample_head ++ new_sensor_logic ++ sample_tail) in
  main w = (w1, inr ()) ∧
  ∃ w2, main w1 = (w2, inr ()) ∧
        fs w2 = fs w1 ∧ written w2 = written w1 ∧
        stdout w2 = stdout w1 ++ failure_lines.
Proof.
  split; [by vm_compute|].
  apply (second_run_reports_failure (only_target (File true true sample_text)));
    by vm_compute.
Defined.

(** C5: whatever the run does, the text the target file holds afterwards is
    the text it held before with some exact copies of the old block turned
    into the new block: both are the same gaps, joined by the old block
    before and by the new block after.  Every other file is untouched. *)
Theorem text_outside_matches_preserved (w : world) (f : file) :
  fs w !! target = Some f →
  ∃ f' gaps,
    fs (main w).1 !! target = Some f' ∧
    text f = join old_sensor_logic gaps ∧
    text f' = join new_sensor_logic gaps ∧
    ∀ path, path ≠ target → fs (main w).1 !! path = fs w !! path.
Proof.
  intros H. rewrite main_cases, H.
  destruct (readable f); [|by exists f, [text f]].
  destruct (contains (text f) old_sensor_logic); [|by exists f, [text f]].
  destruct (writable f); [|by exists f, [text f]].
  destruct (replace_join old_sensor_logic new_sensor_logic
              old_nonempty old_unbordered (text f)) as (gaps & _ & Hs & Hr).
  exists (File true true (replace (text f) old_sensor_logic new_sensor_logic)), gaps.
  cbn [fst success_world fs]. split_and!; [|done..|].
  - apply lookup_insert_eq.
  - intros path Hp. by apply lookup_insert_ne.
Qed.

Lemma text_outside_matches_preserved_witness :
  let w := busy_world (File true true sample_text) in
  fs w !! target = Some (File true true sample_text) ∧
  ∃ f' gaps,
    fs (main w).1 !! target = Some f' ∧
    sample_text = join old_sensor_logic gaps ∧
    text f' = join new_sensor_logic gaps ∧
    ∀ path, path ≠ target → fs (main w).1 !! path = fs w !! path.
Proof.
  split; [by vm_compute|].
  apply (text_outside_matches_preserved
           (busy_world (File true true sample_text)) (File true true sample_text)).
  by vm_compute.
Defined.





(** C8: when the old block matches at [n >= 1] positions of the text of the
    ordinary target file, the text splits into [n + 1] gaps around [n] copies
    of the old block, and the run writes the same gaps around [n] copies of
    the new block: every occurrence is replaced. *)
Theorem every_occurrence_replaced (w : world) (f : file) (n : nat) :
  fs w !! target = Some f → readable f = true → writable f = true →
  occurrences (text f) old_sensor_logic = n → 1 ≤ n →
  ∃ gaps,
    length gaps = S n ∧
    text f = join old_sensor_logic gaps ∧
    main w = (success_world w (join new_sensor_logic gaps), inr ()).
Proof.
  intros H Hr Hw Hn Hpos.
  destruct (replace_join old_sensor_logic new_sensor_logic
              old_nonempty old_unbordered (text f)) as (gaps & Hlen & Hs & Hrepl).
  exists gaps. split_and!; [congruence|done|].
  rewrite <- Hrepl. apply (main_found w f H Hr Hw).
  destruct (contains (text f) old_sensor_logic) eqn:E; [done|].
  apply occurrences_absent in E. lia.
Qed.

Lemma every_occurrence_replaced_witness :
  occurrences twice_text old_sensor_logic = 2 ∧
  ∃ gaps,
    length gaps = 3 ∧
    twice_text = join old_sensor_logic gaps ∧
    main (only_target (File true true twice_text)) =
      (success_world (only_target (File true true twice_text))
         (join new_sensor_logic gaps), inr ()).
Proof.
  split; [by vm_compute|].
  apply (every_occurrence_replaced _ (File true true twice_text) 2);
    [by vm_compute..|lia].
Defined.

(** C9: the old block does not occur in the new block, and the text produced
    by the replacement holds no occurrence of the old block at all, so none
    at a place where the new block was put. *)
Theorem new_block_free_of_old :
  contains new_sensor_logic old_sensor_logic = false ∧
  ∀ s, contains (replace s old_sensor_logic new_sensor_logic) old_sensor_logic = false.
Proof. split; [by vm_compute|apply patched_text_clean]. Qed.



(** ** Further properties of the search and of the replacement *)

Lemma contains_length s p : contains s p = true → length p ≤ length s.
Proof.
  intros (pre & post & ->)%contains_inv. rewrite !length_app. lia.
Qed.

Lemma find_startswith s p : startswith s p = true → find s p = Some 0.
Proof. intros H. destruct s; simpl; by rewrite H. Qed.

(** The first occurrence is where no earlier position matches. *)
Lemma find_first_intro pre p post :
  (∀ u v, pre = u ++ v → v ≠ [] → startswith (v ++ p ++ post) p = false) →
  find (pre ++ p ++ post) p = Some (length pre).
Proof.
  induction pre as [|c pre IH]; intros H.
  - apply find_startswith. exact (startswith_app p post).
  - change (find ((c :: pre) ++ p ++ post) p) with
      (if startswith ((c :: pre) ++ p ++ post) p then Some 0
       else S <$> find (pre ++ p ++ post) p).
    rewrite (H [] (c :: pre)) by done.
    rewrite IH; [done|]. intros u v -> Hv. by apply (H (c :: u)).
Qed.

Lemma startswith_app_short x z p :
  startswith (x ++ z) p = true → length p ≤ length x → startswith x p = true.
Proof.
  intros [H|(b & -> & Hb & _)]%startswith_app_split Hlen; [done|].
  rewrite length_app in Hlen. destruct b; [done|]. simpl in Hlen. lia.
Qed.

(** A separator that cannot overlap itself is first met, after a gap that
    does not hold it, right at the end of the gap. *)
Lemma find_after_gap g sep rest :
  sep ≠ [] →
  no_tail_clash (tail sep) sep = true →
  contains g sep = false →
  find (g ++ sep ++ rest) sep = Some (length g).
Proof.
  intros Hsep Hu Hg. apply find_first_intro. intros u v -> Hv.
  destruct (startswith (v ++ sep ++ rest) sep) eqn:E; [|done]. exfalso.
  apply startswith_app_split in E as [E|(b & Hb & Hne & E)].
  - apply contains_startswith, (contains_app_r u) in E. congruence.
  - assert (startswith sep b = true) as Hpre.
    { apply (startswith_app_short sep rest); [done|].
      rewrite Hb, length_app. lia. }
    destruct v as [|c v]; [done|].
    assert (clash b sep = false) as Hc.
    { apply (no_tail_clash_spec (tail sep) sep v); [done| |done].
      by rewrite Hb at 1. }
    unfold clash in Hc. by rewrite Hpre, orb_true_r in Hc.
Qed.

(** Replacing the separator of a joined text, when no gap holds it. *)
Lemma replace_of_join sep new gaps :
  sep ≠ [] →
  no_tail_clash (tail sep) sep = true →
  Forall (λ g, contains g sep = false) gaps →
  replace (join sep gaps) sep new = join new gaps.
Proof.
  intros Hsep Hu. induction 1 as [|g gaps Hg Hall IH].
  - by destruct sep.
  - destruct gaps as [|g' gaps]; [by apply replace_absent|].
    rewrite !join_cons, replace_first_occurrence, IH; [done..|].
    by apply find_after_gap.
Qed.

Lemma contains_join_gap sep gaps g p :
  g ∈ gaps → contains g p = true → contains (join sep gaps) p = true.
Proof.
  intros Hin Hg. induction Hin as [g gaps|g g0 gaps Hin IH].
  - destruct gaps as [|g' gaps]; [done|]. rewrite join_cons.
    by apply contains_app_l.
  - destruct gaps as [|g' gaps]; [by apply elem_of_nil in Hin|].
    rewrite join_cons, app_assoc. by apply contains_app_r, IH.
Qed.

Lemma length_join sep g gaps :
  length (join sep (g :: gaps)) =
  length g + sum_list (length <$> gaps) + length gaps * length sep.
Proof.
  revert g. induction gaps as [|g' gaps IH]; intros g; [simpl; lia|].
  rewrite join_cons, !length_app, IH.
  change (sum_list (length <$> g' :: gaps)) with
    (length g' + sum_list (length <$> gaps)).
  change (length (g' :: gaps)) with (S (length gaps)).
  lia.
Qed.

(** The new block cannot overlap itself. *)
Lemma new_unbordered : no_tail_clash (tail new_sensor_logic) new_sensor_logic = true.
Proof. vm_compute. reflexivity. Qed.

Lemma new_nonempty : new_sensor_logic ≠ [].
Proof. done. Qed.

(** The replacement is undone by the opposite one on a text that did not
    hold the new block. *)
Lemma replace_back s :
  contains s new_sensor_logic = false →
  replace (replace s old_sensor_logic new_sensor_logic)
          new_sensor_logic old_sensor_logic = s.
Proof.
  intros Hs.
  destruct (replace_join old_sensor_logic new_sensor_logic
              old_nonempty old_unbordered s) as (gaps & _ & Hj & ->).
  rewrite Hj at 1. apply replace_of_join; [apply new_nonempty|apply new_unbordered|].
  apply Forall_forall. intros g Hin.
  destruct (contains g new_sensor_logic) eqn:E; [|done].
  apply (contains_join_gap old_sensor_logic gaps) in E; [|done]. congruence.
Qed.

Lemma replace_length s :
  length (replace s old_sensor_logic new_sensor_logic) =
  length s + 643 * occurrences s old_sensor_logic.
Proof.
  destruct (replace_join old_sensor_logic new_sensor_logic
              old_nonempty old_unbordered s) as (gaps & Hlen & Hj & ->).
  destruct gaps as [|g gaps]; [done|]. injection Hlen as Hlen.
  rewrite Hj at 1. rewrite !length_join, old_length, new_length, <- Hlen. lia.
Qed.

(** X1: whatever the run does to a target file whose text did not hold the
    new block, putting the old block back for every new block in the text it
    leaves gives the text it found: the patch loses nothing. *)
Theorem patch_can_be_undone (w : world) (f : file) :
  fs w !! target = Some f →
  contains (text f) new_sensor_logic = false →
  ∃ f', fs (main w).1 !! target = Some f' ∧
        replace (text f') new_sensor_logic old_sensor_logic = text f.
Proof.
  intros H Hnew. rewrite main_cases, H.
  assert (replace (text f) new_sensor_logic old_sensor_logic = text f) as Hid
    by by apply replace_absent.
  destruct (readable f); [|by exists f].
  destruct (contains (text f) old_sensor_logic); [|by exists f].
  destruct (writable f); [|by exists f].
  eexists. cbn [fst success_world fs]. split; [apply lookup_insert_eq|].
  by apply replace_back.
Qed.

Lemma patch_can_be_undone_witness :
  let w := only_target (File true true twice_text) in
  contains twice_text new_sensor_logic = false ∧
  ∃ f', fs (main w).1 !! target = Some f' ∧
        replace (text f') new_sensor_logic old_sensor_logic = twice_text.
Proof.
  split; [by vm_compute|].
  apply (patch_can_be_undone (only_target (File true true twice_text))
           (File true true twice_text)); by vm_compute.
Defined.

(** X2: a run creates no file, removes none and changes no access right, and
    it opens at most one file for writing, the target. *)
Theorem files_and_rights_kept (w : world) :
  (∀ path, rights <$> fs (main w).1 !! path = rights <$> fs w !! path) ∧
  (written (main w).1 = written w ∨ written (main w).1 = written w ++ [target]).
Proof.
  rewrite main_cases.
  destruct (fs w !! target) as [f|] eqn:H; [|by split; [|left]].
  destruct (readable f) eqn:Hr; [|by split; [|left]].
  destruct (contains (text f) old_sensor_logic); [|by split; [|left]].
  destruct (writable f) eqn:Hw; [|by split; [|left]].
  cbn [fst success_world fs written]. split; [|by right].
  intros path. destruct (decide (path = target)) as [->|Hne].
  - rewrite lookup_insert_eq, H. unfold rights. cbn. by rewrite Hr, Hw.
  - by rewrite lookup_insert_ne.
Qed.

(** X3: the success message is truthful: after a run that ended normally
    with the success lines, the target file holds the new block and holds
    the old block nowhere. *)
Theorem success_means_patched (w w1 : world) :
  main w = (w1, inr ()) → stdout w1 = stdout w ++ success_lines →
  ∃ f1, fs w1 !! target = Some f1 ∧
        contains (text f1) new_sensor_logic = true ∧
        contains (text f1) old_sensor_logic = false.
Proof.
  intros Hm Hs.
  destruct (main_success_inv _ _ Hm Hs) as (f & _ & _ & _ & Hc & ->).
  eexists. split; [apply lookup_insert_eq|]. cbn [text].
  split; [|apply patched_text_clean].
  apply contains_find in Hc as [i Hi].
  destruct (find_split _ _ _ Hi) as (pre & post & Ht & <-). rewrite Ht in *.
  rewrite replace_first_occurrence by (done || apply old_nonempty).
  apply contains_intro.
Qed.

Lemma success_means_patched_witness :
  let w := busy_world (File true true twice_text) in
  let w1 := success_world w (new_sensor_logic ++ newline ++ new_sensor_logic) in
  main w = (w1, inr ()) ∧
  ∃ f1, fs w1 !! target = Some f1 ∧
        contains (text f1) new_sensor_logic = true ∧
        contains (text f1) old_sensor_logic = false.
Proof.
  split; [by vm_compute|].
  apply (success_means_patched (busy_world (File true true twice_text)));
    by vm_compute.
Defined.

(** X4: for a target file that can be read and written, the text left by the
    run is longer than the text found by 643 characters, the difference of
    the two blocks, for each position where the old block matched. *)
Theorem patched_text_length (w : world) (f : file) :
  fs w !! target = Some f → readable f = true → writable f = true →
  ∃ f', fs (main w).1 !! target = Some f' ∧
        length (text f') =
        length (text f) + 643 * occurrences (text f) old_sensor_logic.
Proof.
  intros H Hr Hw. rewrite main_cases, H, Hr, Hw.
  destruct (contains (text f) old_sensor_logic) eqn:Hc.
  - eexists. cbn [fst success_world fs]. split; [apply lookup_insert_eq|].
    apply replace_length.
  - exists f. split; [done|]. apply occurrences_absent in Hc. lia.
Qed.

Lemma patched_text_length_witness :
  let w := only_target (File true true twice_text) in
  ∃ f', fs (main w).1 !! target = Some f' ∧
        length (text f') =
        length twice_text + 643 * occurrences twice_text old_sensor_logic.
Proof.
  apply (patched_text_length (only_target (File true true twice_text))
           (File true true twice_text)); by vm_compute.
Defined.

(** X5: a readable target file whose text is shorter than the old block, an
    empty file for one, is left as it is: the run prints the warning and
    writes nothing, whether or not the file could be written. *)
Theorem short_file_left_alone (w : world) (f : file) :
  fs w !! target = Some f → readable f = true →
  length (text f) < length old_sensor_logic →
  main w = (failure_world w, inr ()).
Proof.
  intros H Hr Hlen. apply (main_absent w f H Hr).
  destruct (contains (text f) old_sensor_logic) eqn:E; [|done].
  apply contains_length in E. lia.
Qed.

Lemma short_file_left_alone_witness :
  main (only_target (File true false [])) =
    (failure_world (only_target (File true false [])), inr ()).
Proof.
  apply (short_file_left_alone _ (File true false [])); [by vm_compute..|].
  vm_compute. lia.
Defined.

(** X6: for a target file that can be read and written, the run reports
    success exactly when the text is some prefix, the old block character
    for character, and some suffix. *)
Theorem success_iff_exact_substring (w : world) (f : file) :
  fs w !! target = Some f → readable f = true → writable f = true →
  stdout (main w).1 = stdout w ++ success_lines ↔
  ∃ pre post, text f = pre ++ old_sensor_logic ++ post.
Proof.
  intros H Hr Hw. rewrite main_cases, H, Hr, Hw.
  destruct (contains (text f) old_sensor_logic) eqn:Hc.
  - split; [intros _; by apply contains_inv|done].
  - cbn [fst failure_world stdout]. split.
    + intros E%app_inv_head. by destruct lines_differ.
    + intros (pre & post & Ht). by rewrite Ht, contains_intro in Hc.
Qed.

Lemma success_iff_exact_substring_witness :
  let w := only_target (File true true sample_text) in
  stdout (main w).1 = stdout w ++ success_lines ↔
  ∃ pre post, sample_text = pre ++ old_sensor_logic ++ post.
Proof.
  apply (success_iff_exact_substring (only_target (File true true sample_text))
           (File true true sample_text)); by vm_compute.
Defined.
